(** * URL schemes of an Info.plist document, and the git helper of EAS Build

    A shallow embedding of two files of expo-cli:

    - the scheme-list editor ([getScheme], [setScheme], [appendScheme],
      [removeScheme], [hasScheme], [getSchemesFromPlist]), pure functions over
      the [CFBundleURLTypes] entry of an Info.plist document;
    - the git helper ([ensureGitRepoExists], [doesGitRepoExist],
      [ensureGitStatusIsCleanAsync], [showDiffAsync],
      [reviewAndCommitChangesAsync]), sequences of subprocess calls and
      prompts, embedded as trees of events and run against a scripted world.

    Documents are values, typed as the TypeScript signatures type them: an
    Info.plist is the tree a property list parses to, so no group object or
    scheme array occurs at two places of one document, and the in-place
    [splice] of [removeScheme] is the document after the call. *)

From stdpp Require Import base option list strings gmap.
From Stdlib Require Import ZArith.

#[local] Set Warnings "-register-all".

(** ** Data model *)

(** [JSONValue]: what a key of the document other than [CFBundleURLTypes], or
    the [scheme] property of a config, may hold.  The payload of a number is
    never inspected. *)
Inductive JSONValue : Type :=
| JNull
| JBool (b : bool)
| JNumber (n : Z)
| JString (s : string)
| JArray (items : list JSONValue)
| JObject (fields : list (string * JSONValue)).

(** Modelled from the spec: the declaration of [URLScheme] is missing from
    the sources.  The spec has the document hold a list of records, each
    holding scheme strings; the source reads and splices their
    [CFBundleURLSchemes] array.  A record of a property list may carry other
    properties beside it, which the editor never reads. *)
Record URLScheme : Type := {
  CFBundleURLSchemes : list string;
  otherProperties : gmap string JSONValue
}.

(** Modelled from the spec: the declaration of [InfoPlist] is missing from
    the sources.  The spec has a property-list-style configuration object
    with a [CFBundleURLTypes] list of such records; the source types the key
    as optional ([None] when it is absent), and the spread [...infoPlist]
    copies the other keys. *)
Record InfoPlist : Type := {
  CFBundleURLTypes : option (list URLScheme);
  otherKeys : gmap string JSONValue
}.

(** Modelled from the spec: the declaration of [ExpoConfig] is missing from
    the sources, and the spec does not describe the config.  The records hold
    what [setScheme] reads of [config] and of [config.ios]. *)
Record IosConfig : Type := {
  ios_scheme : option JSONValue;
  bundleIdentifier : option string
}.

(** [Pick<ExpoConfig, 'scheme' | 'ios'>] *)
Record ExpoConfig : Type := {
  scheme : option JSONValue;
  ios : option IosConfig
}.

(** The parameter type of [getScheme], [{ scheme?: string | string[] }]:
    whatever has a [scheme] property, read at run time as the source does. *)
Class SchemeConfig (C : Type) : Type := configScheme : C -> option JSONValue.

#[global] Instance ExpoConfig_scheme : SchemeConfig ExpoConfig := scheme.
#[global] Instance IosConfig_scheme : SchemeConfig IosConfig := ios_scheme.

(** The object literal [{}] of [config.ios ?? {}]. *)
Definition emptyObject : IosConfig :=
  {| ios_scheme := None; bundleIdentifier := None |}.

(** ** The scheme-list editor *)

(** [validate] of [getScheme]: [typeof value === 'string'], as a partial
    projection so that [filter<string>(validate)] is [omap validate]. *)
Definition validate (value : JSONValue) : option string :=
  match value with
  | JString s => Some s
  | _ => None
  end.

Definition getScheme {C : Type} `{SchemeConfig C} (config : C) : list string :=
  match configScheme config with
  | Some (JArray items) => omap validate items
  | Some (JString s) => [s]
  | _ => []
  end.

(** A string is truthy when it is not empty. *)
Definition truthy (s : string) : bool :=
  match s with
  | EmptyString => false
  | String _ _ => true
  end.

(** The list [setScheme] collects: lines 20 to 24 of the source. *)
Definition collectSchemes (config : ExpoConfig) : list string :=
  let scheme := getScheme config ++ getScheme (default emptyObject (ios config)) in
  match ios config ≫= bundleIdentifier with
  | Some b => if truthy b then scheme ++ [b] else scheme
  | None => scheme
  end.

Definition setScheme (config : ExpoConfig) (infoPlist : InfoPlist) : InfoPlist :=
  let scheme := collectSchemes config in
  if length scheme =? 0 then infoPlist
  else {| CFBundleURLTypes :=
            Some [ {| CFBundleURLSchemes := scheme; otherProperties := ∅ |} ];
          otherKeys := otherKeys infoPlist |}.

(** [scheme : string | null]; [!scheme] holds of [null] and of the empty
    string. *)
Definition appendScheme (scheme : option string) (infoPlist : InfoPlist) : InfoPlist :=
  match scheme with
  | None => infoPlist
  | Some s =>
      if negb (truthy s) then infoPlist
      else
        match CFBundleURLTypes infoPlist with
        | None =>
            setScheme {| scheme := Some (JString s); ios := None |} infoPlist
        | Some existingSchemes =>
            {| CFBundleURLTypes :=
                 Some (existingSchemes ++
                       [ {| CFBundleURLSchemes := [s]; otherProperties := ∅ |} ]);
               otherKeys := otherKeys infoPlist |}
        end
  end.

(** [Array.prototype.indexOf] on strings; [None] stands for [-1]. *)
Fixpoint indexOf (x : string) (l : list string) : option nat :=
  match l with
  | [] => None
  | y :: l' => if decide (y = x) then Some 0 else S <$> indexOf x l'
  end.

(** [l.splice(index, 1)]: the array without its element at [index]. *)
Definition splice1 (index : nat) (l : list string) : list string :=
  delete index l.

(** The callback [removeScheme] maps over the groups; [None] is [undefined]. *)
Definition removeFromGroup (scheme : string) (bundleUrlType : URLScheme)
  : option URLScheme :=
  match indexOf scheme (CFBundleURLSchemes bundleUrlType) with
  | Some index =>
      let schemes := splice1 index (CFBundleURLSchemes bundleUrlType) in
      if length schemes =? 0 then None
      else Some {| CFBundleURLSchemes := schemes;
                   otherProperties := otherProperties bundleUrlType |}
  | None => Some bundleUrlType
  end.

(** [.filter(Boolean)] on an array of objects and [undefined]. *)
Definition filterBoolean {A : Type} (l : list (option A)) : list A :=
  omap id l.

(** [removeScheme] assigns the new list to the document it was given and
    returns that document: the value below is both. *)
Definition removeScheme (scheme : option string) (infoPlist : InfoPlist) : InfoPlist :=
  match scheme with
  | None => infoPlist
  | Some s =>
      if negb (truthy s) then infoPlist
      else
        match CFBundleURLTypes infoPlist with
        | None => infoPlist
        | Some urlTypes =>
            {| CFBundleURLTypes :=
                 Some (filterBoolean (map (removeFromGroup s) urlTypes));
               otherKeys := otherKeys infoPlist |}
        end
  end.

(** [schemes.includes(scheme)] *)
Definition includes (scheme : string) (schemes : list string) : bool :=
  existsb (fun x => bool_decide (x = scheme)) schemes.

Definition hasScheme (scheme : string) (infoPlist : InfoPlist) : bool :=
  match CFBundleURLTypes infoPlist with
  | None => false
  | Some existingSchemes =>
      existsb (fun g => includes scheme (CFBundleURLSchemes g)) existingSchemes
  end.

Definition getSchemesFromPlist (infoPlist : InfoPlist) : list string :=
  match CFBundleURLTypes infoPlist with
  | Some urlTypes =>
      fold_left (fun schemes g => schemes ++ CFBundleURLSchemes g) urlTypes []
  | None => []
  end.

(** ** The git helper: programs as trees of events *)

(** What the helper throws: [new Error(message)], [new CommandError(message)],
    [new DirtyGitTreeError(message)], and the rejection of [spawnAsync] when
    the subprocess fails. *)
Inductive Exception : Type :=
| Error (message : string)
| CommandError (message : string)
| DirtyGitTreeError (message : string)
| SpawnFailure (args : list string) (reason : string).

(** How the promise of [spawnAsync('git', args)] settles. *)
Inductive SpawnResult : Type :=
| Resolved (stdout : string)
| Rejected (reason : string).

(** The calls to the outside, indexed by the type of their answer. *)
Inductive Event : Type -> Type :=
| WhichGit : Event (option string)
| Spawn (args : list string) : Event SpawnResult
| Log (line : string) : Event unit
| Confirm (message : string) : Event bool
| Text (message initial : string) (validate : string -> bool) : Event string.

Inductive Prog (A : Type) : Type :=
| Ret (a : A)
| Throw (e : Exception)
| Vis {X : Type} (ev : Event X) (k : X -> Prog A).

Arguments Ret {A} a.
Arguments Throw {A} e.
Arguments Vis {A X} ev k.

Fixpoint bind {A B : Type} (p : Prog A) (f : A -> Prog B) : Prog B :=
  match p with
  | Ret a => f a
  | Throw e => Throw e
  | Vis ev k => Vis ev (fun x => bind (k x) f)
  end.

(** [try { p } catch (err) { h err }] *)
Fixpoint catch {A : Type} (p : Prog A) (h : Exception -> Prog A) : Prog A :=
  match p with
  | Ret a => Ret a
  | Throw e => h e
  | Vis ev k => Vis ev (fun x => catch (k x) h)
  end.

#[global] Instance Prog_ret : MRet Prog := fun A a => Ret a.
#[global] Instance Prog_bind : MBind Prog := fun A B f p => bind p f.

Definition trigger {X : Type} (ev : Event X) : Prog X := Vis ev Ret.

(** [await spawnAsync('git', args)]: the standard output, or the rejection
    thrown. *)
Definition spawnAsync (args : list string) : Prog string :=
  r ← trigger (Spawn args);
  match r with
  | Resolved stdout => Ret stdout
  | Rejected reason => Throw (SpawnFailure args reason)
  end.

Definition log (line : string) : Prog unit := trigger (Log line).

(** [await prompts(question)], the question being a confirm or a text one. *)
Definition prompts {X : Type} (question : Event X) : Prog X := trigger question.

(** [log.newLine()] *)
Definition newLine : Prog unit := log EmptyString.

(** [which.sync] answers a path or [null]; [!gitFound]. *)
Definition found (gitFound : option string) : bool :=
  match gitFound with
  | Some path => truthy path
  | None => false
  end.

(** [validate: input => input !== ''] of both commit-message prompts. *)
Definition nonEmptyInput (input : string) : bool :=
  negb (bool_decide (input = EmptyString)).

Definition doesGitRepoExist : Prog bool :=
  catch (_ ← spawnAsync ["rev-parse"; "--git-dir"]; Ret true)
        (fun _ => Ret false).

Definition ensureGitRepoExists : Prog unit :=
  gitFound ← trigger WhichGit;
  if negb (found gitFound) then
    Throw (Error "git command has not been found, install it before proceeding")
  else
    repoExists ← doesGitRepoExist;
    if (repoExists : bool) then Ret tt
    else
      log "It looks like you haven't initialized the git repository yet.";;
      log "EAS Build require you to use a git repository for your project.";;
      confirmInit ← prompts (Confirm "Would you like to run 'git init' in the current directory?");
      if negb confirmInit then
        Throw (Error "A git repository is required for building your project. Initialize it and run this command again.")
      else
        spawnAsync ["init"];;
        log "We're going to make an initial commit for you repository.";;
        message ← prompts (Text "Commit message:" "Initial commit" nonEmptyInput);
        spawnAsync ["add"; "-A"];;
        spawnAsync ["commit"; "-m"; message];;
        Ret tt.

Definition ensureGitStatusIsCleanAsync : Prog unit :=
  changes ← spawnAsync ["status"; "-s"; "-uno"];
  if 0 <? String.length changes then
    Throw (DirtyGitTreeError "Please commit all changes before building your project. Aborting...")
  else Ret tt.

(** The [stdio] option only sends the output of the diff to the terminal. *)
Definition showDiffAsync : Prog unit :=
  spawnAsync ["--no-pager"; "diff"];; Ret tt.

Definition reviewAndCommitChangesAsync (commitMessage : string) (nonInteractive : bool)
  : Prog unit :=
  if nonInteractive then
    Throw (CommandError "Cannot commit changes when --non-interactive is specified. Run the command in interactive mode to review and commit changes.")
  else
    log "Please review the following changes and pass the message to make the commit.";;
    newLine;;
    showDiffAsync;;
    newLine;;
    confirm ← prompts (Confirm "Can we commit these changes for you?");
    if negb confirm then
      Throw (Error "Aborting commit. Please review and commit the changes manually.")
    else
      message ← prompts (Text "Commit message:" commitMessage nonEmptyInput);
      spawnAsync ["add"; "-u"];;
      spawnAsync ["commit"; "-m"; message];;
      Ret tt.

(** ** The world the helper runs in *)

(** What a run leaves behind, in order. *)
Inductive Obs : Type :=
| Spawned (args : list string)
| Logged (line : string)
| Confirmed (message : string) (answer : bool)
| Submitted (message : string) (input : string) (accepted : bool).

(** The git invocations of a trace. *)
Definition invocations (tr : list Obs) : list (list string) :=
  omap (fun o => match o with Spawned args => Some args | _ => None end) tr.

(** The world: where [which] finds git, how git settles an invocation after
    the earlier ones, the operator's answers to the confirm prompts and the
    inputs the operator submits at the text prompts, both in order, what a
    text prompt does with a value that [validate] rejects (it throws the
    error, or with [None] it asks again), and the trace so far. *)
Record World : Type := {
  gitPath : option string;
  git : list (list string) -> list string -> SpawnResult;
  confirmations : list bool;
  submissions : list string;
  onInvalid : option Exception;
  trace : list Obs
}.

Definition observe (o : Obs) (w : World) : World :=
  {| gitPath := gitPath w; git := git w; confirmations := confirmations w;
     submissions := submissions w; onInvalid := onInvalid w;
     trace := trace w ++ [o] |}.

Definition gitSettles (w : World) (args : list string) : SpawnResult :=
  git w (invocations (trace w)) args.

(** The operator has [inputs] left to submit at the text prompts. *)
Definition submitting (inputs : list string) (w : World) : World :=
  {| gitPath := gitPath w; git := git w; confirmations := confirmations w;
     submissions := inputs; onInvalid := onInvalid w; trace := trace w |}.

(** The answer of the world to an event: an answer, none while the operator
    leaves a prompt open, or an error thrown in place of an answer. *)
Inductive Answer (X : Type) : Type :=
| Answered (x : X)
| Unanswered
| Failed (e : Exception).

Arguments Answered {X} x.
Arguments Unanswered {X}.
Arguments Failed {X} e.

(** The value a text prompt takes from an input: the input, and the
    [initial] of the question when the input is left empty. *)
Definition valueOf (initial input : string) : string :=
  if truthy input then input else initial.

Arguments valueOf : simpl never.

(** Modelled from the spec: the prompts module that the helper imports is
    missing from the sources.  The spec has the text prompt surfaced to the
    operator and answering a string.  The question carries the [initial] and
    the [validate] that the source passes: an input left empty stands for the
    initial value, and a value that [validate] accepts is the answer.  What
    the prompt does with a value that [validate] rejects is in neither the
    sources nor the spec, and is left to the world ([onInvalid]). *)
Fixpoint promptText (message initial : string) (validate : string -> bool) (w : World)
  (inputs : list string) : Answer string * World :=
  match inputs with
  | [] => (Unanswered, submitting [] w)
  | input :: inputs' =>
      if validate (valueOf initial input) then
        (Answered (valueOf initial input),
         observe (Submitted message input true) (submitting inputs' w))
      else
        match onInvalid w with
        | Some e =>
            (Failed e, observe (Submitted message input false) (submitting inputs' w))
        | None =>
            promptText message initial validate
              (observe (Submitted message input false) w) inputs'
        end
  end.

(** How the world answers an event, and the world after the answer. *)
Definition handle {X : Type} (ev : Event X) (w : World) : Answer X * World :=
  match ev in Event X return Answer X * World with
  | WhichGit => (Answered (gitPath w), w)
  | Spawn args => (Answered (gitSettles w args), observe (Spawned args) w)
  | Log line => (Answered tt, observe (Logged line) w)
  | Confirm message =>
      match confirmations w with
      | [] => (Unanswered, w)
      | answer :: answers =>
          (Answered answer,
           observe (Confirmed message answer)
             {| gitPath := gitPath w; git := git w; confirmations := answers;
                submissions := submissions w; onInvalid := onInvalid w;
                trace := trace w |})
      end
  | Text message initial validate =>
      promptText message initial validate w (submissions w)
  end.

Inductive Outcome (A : Type) : Type :=
| Returned (a : A)
| Threw (e : Exception)
| Pending.

Arguments Returned {A} a.
Arguments Threw {A} e.
Arguments Pending {A}.

Fixpoint run {A : Type} (p : Prog A) (w : World) : Outcome A * World :=
  match p with
  | Ret a => (Returned a, w)
  | Throw e => (Threw e, w)
  | Vis ev k =>
      match handle ev w with
      | (Answered x, w') => run (k x) w'
      | (Unanswered, w') => (Pending, w')
      | (Failed e, w') => (Threw e, w')
      end
  end.

(** The git subcommands that change the repository. *)
Definition mutates (args : list string) : bool :=
  match args with
  | subcommand :: _ =>
      bool_decide (subcommand = "init")
      || bool_decide (subcommand = "add")
      || bool_decide (subcommand = "commit")
  | [] => false
  end.

(** The observations a run adds to the trace of the world it starts in. *)
Definition observed {A : Type} (p : Prog A) (w : World) : list Obs :=
  drop (length (trace w)) (trace (snd (run p w))).

(** The submissions a text prompt turns down. *)
Definition turnedDown (message : string) (inputs : list string) : list Obs :=
  map (fun input => Submitted message input false) inputs.

(** What some world may answer to an event, and what the answer leaves in
    the trace. *)
Definition mayAnswer {X : Type} (ev : Event X) (obs : list Obs) : Answer X -> Prop :=
  match ev in Event X return Answer X -> Prop with
  | WhichGit => fun a => obs = [] ∧ ∃ x, a = Answered x
  | Spawn args => fun a => obs = [Spawned args] ∧ ∃ x, a = Answered x
  | Log line => fun a => obs = [Logged line] ∧ a = Answered tt
  | Confirm message => fun a =>
      match a with
      | Answered answer => obs = [Confirmed message answer]
      | Unanswered => obs = []
      | Failed _ => False
      end
  | Text message initial validate => fun a =>
      ∃ rejected,
        Forall (fun input => validate (valueOf initial input) = false) rejected ∧
        match a with
        | Answered value =>
            ∃ input, value = valueOf initial input ∧ validate value = true ∧
              obs = turnedDown message rejected ++ [Submitted message input true]
        | Unanswered => obs = turnedDown message rejected
        | Failed _ =>
            ∃ input, validate (valueOf initial input) = false ∧
              obs = turnedDown message rejected ++ [Submitted message input false]
        end
  end.

(** [post p Q]: in every world, the observations and the outcome of a run
    of [p] satisfy [Q]. *)
Fixpoint post {A : Type} (p : Prog A) (Q : list Obs -> Outcome A -> Prop) : Prop :=
  match p with
  | Ret a => Q [] (Returned a)
  | Throw e => Q [] (Threw e)
  | Vis ev k =>
      ∀ obs a, mayAnswer ev obs a ->
        match a with
        | Answered x => post (k x) (fun tr o => Q (obs ++ tr) o)
        | Unanswered => Q obs Pending
        | Failed e => Q obs (Threw e)
        end
  end.

(** A trace in which git changes the repository only after the operator has
    answered yes to the prompt [question]. *)
Fixpoint guarded (question : string) (confirmed : bool) (tr : list Obs) : bool :=
  match tr with
  | [] => true
  | Spawned args :: tr' =>
      (confirmed || negb (mutates args)) && guarded question confirmed tr'
  | Confirmed message answer :: tr' =>
      guarded question (confirmed || (bool_decide (message = question) && answer)) tr'
  | _ :: tr' => guarded question confirmed tr'
  end.

(** A sample world: git is installed, the directory is a repository or not,
    [git status] prints [statusOut], every other subcommand succeeds silently,
    and the operator follows the two scripts. *)
Definition sampleWorld (repoExists : bool) (statusOut : string)
  (answers : list bool) (inputs : list string) : World :=
  {| gitPath := Some "/usr/bin/git";
     git := fun _ args =>
       if decide (args = ["rev-parse"; "--git-dir"]) then
         if repoExists then Resolved ".git"
         else Rejected "fatal: not a git repository"
       else if decide (args = ["status"; "-s"; "-uno"]) then Resolved statusOut
       else Resolved EmptyString;
     confirmations := answers;
     submissions := inputs;
     onInvalid := None;
     trace := [] |}.



(** ** Reading a document *)

(** The groups of a document: its [CFBundleURLTypes] list, no group when the
    key is absent. *)
Definition groupsOf (p : InfoPlist) : list URLScheme :=
  default [] (CFBundleURLTypes p).

(** The invariant of the data model: no stored scheme string is empty. *)
Definition schemesNonEmpty (p : InfoPlist) : Prop :=
  Forall (fun g => Forall (fun x => x ≠ EmptyString) (CFBundleURLSchemes g)) (groupsOf p).

#[global] Instance schemesNonEmpty_dec p : Decision (schemesNonEmpty p).
Proof. unfold schemesNonEmpty. apply _. Defined.

(** The group [setScheme] and [appendScheme] build around a list of schemes. *)
Definition groupWith (schemes : list string) : URLScheme :=
  {| CFBundleURLSchemes := schemes; otherProperties := ∅ |}.

(** The config [{ scheme }] that [appendScheme] hands to [setScheme]. *)
Definition schemeConfig (s : string) : ExpoConfig :=
  {| scheme := Some (JString s); ios := None |}.

(** What the bundle identifier adds to the schemes: itself when it is set
    and truthy. *)
Definition bundleSchemes (config : ExpoConfig) : list string :=
  match ios config ≫= bundleIdentifier with
  | Some b => if truthy b then [b] else []
  | None => []
  end.

(** The array after the [splice] of [removeScheme]: without the first
    occurrence of [scheme], when there is one. *)
Definition spliceOut (scheme : string) (l : list string) : list string :=
  match indexOf scheme l with
  | Some index => splice1 index l
  | None => l
  end.

(** Sample documents. *)
Definition emptyPlist : InfoPlist :=
  {| CFBundleURLTypes := None; otherKeys := ∅ |}.

Definition twoGroups : InfoPlist :=
  {| CFBundleURLTypes := Some [groupWith ["myapp"; "exp"]; groupWith ["fb123"]];
     otherKeys := {[ "CFBundleName" := JString "Example" ]} |}.

Definition threeGroups : InfoPlist :=
  {| CFBundleURLTypes :=
       Some [groupWith ["myapp"; "exp"]; groupWith ["fb123"]; groupWith ["exp"]];
     otherKeys := ∅ |}.

(** [options?: { intentToAdd?: boolean }] of [addFileAsync]. *)
Record AddOptions : Type := {
  intentToAdd : option bool
}.

(** [options?.intentToAdd], read for its truthiness. *)
Definition addFileAsync (file : string) (options : option AddOptions) : Prog unit :=
  if default false (options ≫= intentToAdd) then
    spawnAsync ["add"; "--intent-to-add"; file];; Ret tt
  else
    spawnAsync ["add"; file];; Ret tt.

(** The git invocations [ensureGitRepoExists] makes at most, in order, when
    it commits with [message]. *)
Definition initSequence (message : string) : list (list string) :=
  [ ["rev-parse"; "--git-dir"]; ["init"]; ["add"; "-A"]; ["commit"; "-m"; message] ].

(** The git invocations [reviewAndCommitChangesAsync] makes at most. *)
Definition commitSequence (message : string) : list (list string) :=
  [ ["--no-pager"; "diff"]; ["add"; "-u"]; ["commit"; "-m"; message] ].

(** The observations that are a prompt answered by the operator. *)
Definition isPrompt (o : Obs) : bool :=
  match o with
  | Confirmed _ _ | Submitted _ _ _ => true
  | Spawned _ | Logged _ => false
  end.

(** * Facts about the scheme-list editor *)

Section SchemeList.

Implicit Types (s x : string) (l : list string) (g : URLScheme) (p : InfoPlist).

Lemma truthy_spec s : truthy s = true ↔ s ≠ EmptyString.
Proof. destruct s; simpl; split; congruence. Qed.

Lemma truthy_false s : truthy s = false ↔ s = EmptyString.
Proof. destruct s; simpl; split; congruence. Qed.

Lemma includes_spec s l : includes s l = true ↔ s ∈ l.
Proof.
  unfold includes. rewrite existsb_exists. split.
  - intros (x & Hin & Heq). apply bool_decide_eq_true in Heq. subst x.
    by apply list_elem_of_In.
  - intros Hin. exists s. split; [by apply list_elem_of_In|].
    by apply bool_decide_eq_true.
Qed.

Lemma hasScheme_groupsOf s p :
  hasScheme s p = true ↔ ∃ g, g ∈ groupsOf p ∧ s ∈ CFBundleURLSchemes g.
Proof.
  unfold hasScheme, groupsOf. destruct (CFBundleURLTypes p) as [gs|]; simpl.
  - rewrite existsb_exists. split.
    + intros (g & Hin & Hinc). exists g.
      split; [by apply list_elem_of_In | by apply includes_spec].
    + intros (g & Hin & Hs). exists g.
      split; [by apply list_elem_of_In | by apply includes_spec].
  - split; [discriminate|]. intros (g & Hin & _). by apply elem_of_nil in Hin.
Qed.

(** C1. [hasScheme scheme infoPlist] is true exactly when [scheme] is an
    element of the [CFBundleURLSchemes] list of some record of the document's
    [CFBundleURLTypes] list; no such record exists when the key is absent, and
    the answer is then false. *)
Theorem hasScheme_iff s p :
  (hasScheme s p = true ↔
   ∃ gs g, CFBundleURLTypes p = Some gs ∧ g ∈ gs ∧ s ∈ CFBundleURLSchemes g) ∧
  hasScheme s {| CFBundleURLTypes := None; otherKeys := otherKeys p |} = false.
Proof.
  split; [|done]. rewrite hasScheme_groupsOf. unfold groupsOf. split.
  - intros (g & Hin & Hs). destruct (CFBundleURLTypes p) as [gs|]; simpl in Hin.
    + by exists gs, g.
    + by apply elem_of_nil in Hin.
  - intros (gs & g & -> & Hin & Hs). by exists g.
Qed.

Lemma setScheme_schemeConfig s p :
  setScheme (schemeConfig s) p =
  {| CFBundleURLTypes := Some [groupWith [s]]; otherKeys := otherKeys p |}.
Proof. reflexivity. Qed.

Lemma appendScheme_truthy s p :
  s ≠ EmptyString →
  appendScheme (Some s) p =
  {| CFBundleURLTypes := Some (groupsOf p ++ [groupWith [s]]);
     otherKeys := otherKeys p |}.
Proof.
  intros Hs. apply truthy_spec in Hs. unfold appendScheme, groupsOf.
  rewrite Hs. simpl. by destruct (CFBundleURLTypes p).
Qed.

(** C2. Appending a scheme that is neither null nor empty keeps every group
    of the document, unchanged and at its position: the groups of the result
    are the groups of the document followed by the one new group. *)
Theorem appendScheme_keeps_groups s p :
  s ≠ EmptyString →
  groupsOf (appendScheme (Some s) p) = groupsOf p ++ [groupWith [s]] ∧
  ∀ i g, groupsOf p !! i = Some g → groupsOf (appendScheme (Some s) p) !! i = Some g.
Proof.
  intros Hs. rewrite (appendScheme_truthy s p Hs). unfold groupsOf at 1 3. simpl.
  split; [done|]. intros i g Hi. by apply lookup_app_l_Some.
Qed.

Lemma appendScheme_keeps_groups_witness :
  "com.example.app" ≠ EmptyString ∧
  groupsOf (appendScheme (Some "com.example.app") twoGroups) =
    [groupWith ["myapp"; "exp"]; groupWith ["fb123"]; groupWith ["com.example.app"]].
Proof.
  split; [discriminate|].
  exact (proj1 (appendScheme_keeps_groups "com.example.app" twoGroups ltac:(discriminate))).
Defined.

(** C4. Reading back, with [getSchemesFromPlist], the document that [setScheme]
    returns for the config [{ scheme: s }] yields the list holding exactly
    [s], whatever the document and the string. *)
Theorem setScheme_getSchemesFromPlist s p :
  getSchemesFromPlist (setScheme (schemeConfig s) p) = [s].
Proof. by rewrite setScheme_schemeConfig. Qed.

Lemma collectSchemes_eq config :
  collectSchemes config =
  getScheme config ++ getScheme (default emptyObject (ios config)) ++ bundleSchemes config.
Proof.
  unfold collectSchemes, bundleSchemes.
  destruct (ios config ≫= bundleIdentifier) as [b|]; [|by rewrite app_nil_r].
  destruct (truthy b); [by rewrite <- app_assoc | by rewrite app_nil_r].
Qed.

Lemma setScheme_collected config p :
  setScheme config p =
  match collectSchemes config with
  | [] => p
  | collected => {| CFBundleURLTypes := Some [groupWith collected];
                    otherKeys := otherKeys p |}
  end.
Proof. unfold setScheme. by destruct (collectSchemes config). Qed.

(** C10. When the config yields a scheme or a truthy bundle identifier,
    [setScheme] returns a document whose [CFBundleURLTypes] is the single
    group of all collected schemes, whatever groups the input had, and whose
    other keys are those of the input; when the config yields nothing, the
    input document is returned as it is. *)
Theorem setScheme_replaces_groups config p :
  let collected :=
    getScheme config ++ getScheme (default emptyObject (ios config)) ++ bundleSchemes config in
  (collected ≠ [] →
   CFBundleURLTypes (setScheme config p) = Some [groupWith collected] ∧
   otherKeys (setScheme config p) = otherKeys p) ∧
  (collected = [] → setScheme config p = p).
Proof.
  intros collected. rewrite setScheme_collected, collectSchemes_eq. fold collected.
  destruct collected as [|x l]; simpl; split; intros H; done.
Qed.

Lemma setScheme_replaces_groups_witness :
  CFBundleURLTypes
    (setScheme {| scheme := Some (JArray [JString "myapp"; JNumber 7; JString "exp"]);
                  ios := Some {| ios_scheme := Some (JString "ios-only");
                                 bundleIdentifier := Some "com.example.app" |} |}
               twoGroups)
  = Some [groupWith ["myapp"; "exp"; "ios-only"; "com.example.app"]].
Proof.
  refine (proj1 (proj1 (setScheme_replaces_groups _ twoGroups) _)). discriminate.
Defined.

(** *** Removing a scheme *)

Lemma indexOf_None s l : indexOf s l = None ↔ s ∉ l.
Proof.
  induction l as [|y l IH]; simpl.
  - split; [intros _; apply not_elem_of_nil | done].
  - rewrite not_elem_of_cons. destruct (decide (y = s)) as [->|Hne].
    + split; [discriminate | intros [? _]; done].
    + destruct (indexOf s l); simpl.
      * split; [discriminate|]. intros [_ Hl]. by apply IH in Hl.
      * split; [|done]. intros _. split; [congruence | by apply IH].
Qed.

(** The index found is that of the first occurrence, and the splice takes
    that occurrence out. *)
Lemma indexOf_Some s l i :
  indexOf s l = Some i →
  ∃ l1 l2, l = l1 ++ s :: l2 ∧ (s ∉ l1) ∧ i = length l1 ∧ splice1 i l = l1 ++ l2.
Proof.
  revert i. induction l as [|y l IH]; simpl; intros i Hi; [done|].
  destruct (decide (y = s)) as [->|Hne].
  - injection Hi as <-. exists [], l. split_and!; try done. apply not_elem_of_nil.
  - destruct (indexOf s l) as [j|] eqn:Hj; [|done]. injection Hi as <-.
    destruct (IH j eq_refl) as (l1 & l2 & -> & Hnot & -> & Hdel).
    exists (y :: l1), l2. split_and!; try done.
    + apply not_elem_of_cons. split; [congruence | done].
    + unfold splice1 in *. simpl. f_equal. exact Hdel.
Qed.

Lemma filterBoolean_map {A B : Type} (f : A → option B) (l : list A) :
  filterBoolean (map f l) = omap f l.
Proof.
  unfold filterBoolean. induction l as [|a l IH]; csimpl; [done|].
  rewrite IH. unfold id. by destruct (f a).
Qed.

Lemma removeFromGroup_absent s g :
  s ∉ CFBundleURLSchemes g → removeFromGroup s g = Some g.
Proof. intros H. apply indexOf_None in H. unfold removeFromGroup. by rewrite H. Qed.

Lemma removeFromGroup_spliceOut s g :
  removeFromGroup s g =
  if decide (s ∈ CFBundleURLSchemes g) then
    match spliceOut s (CFBundleURLSchemes g) with
    | [] => None
    | schemes => Some {| CFBundleURLSchemes := schemes;
                         otherProperties := otherProperties g |}
    end
  else Some g.
Proof.
  unfold removeFromGroup, spliceOut.
  destruct (indexOf s (CFBundleURLSchemes g)) as [i|] eqn:Hi.
  - rewrite decide_True.
    + by destruct (splice1 i (CFBundleURLSchemes g)).
    + destruct (indexOf_Some _ _ _ Hi) as (l1 & l2 & -> & _).
      apply elem_of_app. right. apply elem_of_cons. by left.
  - rewrite decide_False; [done | by apply indexOf_None].
Qed.

Lemma omap_removeFromGroup_absent s (gs : list URLScheme) :
  (∀ g, g ∈ gs → s ∉ CFBundleURLSchemes g) → omap (removeFromGroup s) gs = gs.
Proof.
  induction gs as [|g gs IH]; intros H; csimpl; [done|].
  rewrite removeFromGroup_absent by (apply H, elem_of_cons; by left).
  rewrite IH; [done|]. intros g' Hg'. apply H, elem_of_cons. by right.
Qed.

Lemma removeScheme_truthy s p :
  s ≠ EmptyString →
  removeScheme (Some s) p =
  match CFBundleURLTypes p with
  | None => p
  | Some gs => {| CFBundleURLTypes := Some (omap (removeFromGroup s) gs);
                  otherKeys := otherKeys p |}
  end.
Proof.
  intros Hs. apply truthy_spec in Hs. unfold removeScheme. rewrite Hs. simpl.
  destruct (CFBundleURLTypes p); [|done]. by rewrite filterBoolean_map.
Qed.

Lemma removeScheme_falsy p : removeScheme (Some EmptyString) p = p ∧ removeScheme None p = p.
Proof. done. Qed.

(** The splice leaves the list of a group that holds the scheme empty exactly
    when the scheme is all the group lists. *)
Lemma spliceOut_empty s l : s ∈ l ∧ spliceOut s l = [] ↔ l = [s].
Proof.
  split.
  - intros [Hin Hempty]. unfold spliceOut in Hempty.
    destruct (indexOf s l) as [i|] eqn:Hi.
    + destruct (indexOf_Some _ _ _ Hi) as (l1 & l2 & -> & _ & _ & Hsplice).
      rewrite Hsplice in Hempty. by apply app_eq_nil in Hempty as [-> ->].
    + apply indexOf_None in Hi. done.
  - intros ->. split; [by apply list_elem_of_singleton|].
    unfold spliceOut. simpl. by rewrite decide_True.
Qed.

(** C3, as the code has it. For a scheme that is not the empty string and
    appears in exactly one group of [CFBundleURLTypes]: if the splice of
    [removeScheme] (which takes the first occurrence of the scheme out) leaves
    the list of that group empty, the result has no such group any more, and
    the groups before and after it and the other keys are as they were. *)
Theorem removeScheme_drops_emptied_group s p gs1 g gs2 :
  s ≠ EmptyString →
  CFBundleURLTypes p = Some (gs1 ++ g :: gs2) →
  s ∈ CFBundleURLSchemes g →
  (∀ g', g' ∈ gs1 ++ gs2 → s ∉ CFBundleURLSchemes g') →
  spliceOut s (CFBundleURLSchemes g) = [] →
  CFBundleURLTypes (removeScheme (Some s) p) = Some (gs1 ++ gs2) ∧
  otherKeys (removeScheme (Some s) p) = otherKeys p.
Proof.
  intros Hs Hp Hin Hothers Hempty.
  rewrite (removeScheme_truthy s p Hs), Hp. simpl. split; [|done]. f_equal.
  rewrite omap_app. csimpl.
  rewrite removeFromGroup_spliceOut, decide_True, Hempty by done.
  rewrite !omap_removeFromGroup_absent; [done| |];
    intros g' Hg'; apply Hothers, elem_of_app; auto.
Qed.

Lemma removeScheme_drops_emptied_group_witness :
  "fb123" ≠ EmptyString ∧
  CFBundleURLTypes (removeScheme (Some "fb123") threeGroups)
  = Some ([groupWith ["myapp"; "exp"]] ++ [groupWith ["exp"]]).
Proof.
  split; [discriminate|].
  refine (proj1 (removeScheme_drops_emptied_group "fb123" threeGroups
                   [groupWith ["myapp"; "exp"]] (groupWith ["fb123"]) [groupWith ["exp"]]
                   _ eq_refl _ _ eq_refl)).
  - discriminate.
  - apply list_elem_of_singleton. reflexivity.
  - apply (proj1 (Forall_forall (fun g' => "fb123" ∉ CFBundleURLSchemes g') _)).
    repeat constructor; simpl; intros H;
      repeat (apply elem_of_cons in H as [H|H]; [discriminate|]);
      by apply elem_of_nil in H.
Defined.

(** The claim C3 fails for the empty scheme string: [removeScheme] returns
    the document as it is, and the group holding only that string, which the
    splice would leave empty, stays. *)
Lemma removeScheme_empty_scheme_keeps_group :
  EmptyString ∈ CFBundleURLSchemes (groupWith [EmptyString]) ∧
  spliceOut EmptyString (CFBundleURLSchemes (groupWith [EmptyString])) = [] ∧
  CFBundleURLTypes
    (removeScheme (Some EmptyString)
       {| CFBundleURLTypes := Some ([] ++ groupWith [EmptyString] :: []);
          otherKeys := ∅ |})
  = Some [groupWith [EmptyString]] ∧
  Some [groupWith [EmptyString]] ≠ Some ([] ++ [] : list URLScheme).
Proof.
  split_and!; [apply list_elem_of_singleton; reflexivity | reflexivity | reflexivity | discriminate].
Qed.

Lemma spliceOut_cons s y l :
  spliceOut s (y :: l) = if decide (y = s) then l else y :: spliceOut s l.
Proof.
  unfold spliceOut, splice1. simpl.
  destruct (decide (y = s)); [done|]. by destruct (indexOf s l).
Qed.

Lemma spliceOut_length s l : length l ≤ S (length (spliceOut s l)).
Proof.
  induction l as [|y l IH]; [simpl; lia|]. rewrite spliceOut_cons.
  destruct (decide (y = s)); simpl; lia.
Qed.

(** A scheme listed twice is still listed after the splice. *)
Lemma spliceOut_twice s l1 l2 l3 : s ∈ spliceOut s (l1 ++ s :: l2 ++ s :: l3).
Proof.
  induction l1 as [|y l1 IH]; simpl; rewrite spliceOut_cons.
  - rewrite decide_True by done. apply elem_of_app. right. apply elem_of_cons. by left.
  - destruct (decide (y = s)) as [->|Hne].
    + apply elem_of_app. right. apply elem_of_cons. by left.
    + apply elem_of_cons. by right.
Qed.

(** C9. [removeScheme] takes at most one occurrence of the scheme out of a
    group: when a group of the document lists the scheme twice, the result
    still has that group, at most one string shorter and still listing the
    scheme, and [hasScheme] is still true of the result. *)
Theorem removeScheme_leaves_duplicate s p gs g l1 l2 l3 :
  CFBundleURLTypes p = Some gs →
  g ∈ gs →
  CFBundleURLSchemes g = l1 ++ s :: l2 ++ s :: l3 →
  hasScheme s (removeScheme (Some s) p) = true ∧
  ∃ g', g' ∈ groupsOf (removeScheme (Some s) p) ∧
        otherProperties g' = otherProperties g ∧
        s ∈ CFBundleURLSchemes g' ∧
        length (CFBundleURLSchemes g) ≤ S (length (CFBundleURLSchemes g')).
Proof.
  intros Hp Hg Hl.
  assert (Hsg : s ∈ CFBundleURLSchemes g).
  { rewrite Hl. apply elem_of_app. right. apply elem_of_cons. by left. }
  assert (∃ g', g' ∈ groupsOf (removeScheme (Some s) p) ∧
                otherProperties g' = otherProperties g ∧
                s ∈ CFBundleURLSchemes g' ∧
                length (CFBundleURLSchemes g) ≤ S (length (CFBundleURLSchemes g')))
    as (g' & Hg' & Hname & Hs & Hlen).
  { destruct (decide (s = EmptyString)) as [->|Hne].
    - exists g. rewrite (proj1 (removeScheme_falsy p)). unfold groupsOf. rewrite Hp.
      split_and!; [done | done | done | lia].
    - pose proof (spliceOut_twice s l1 l2 l3) as Hin. rewrite <- Hl in Hin.
      pose proof (spliceOut_length s (CFBundleURLSchemes g)) as Hlen.
      exists {| CFBundleURLSchemes := spliceOut s (CFBundleURLSchemes g);
                otherProperties := otherProperties g |}.
      split_and!; try done.
      rewrite (removeScheme_truthy s p Hne), Hp. unfold groupsOf. simpl.
      apply list_elem_of_omap. exists g. split; [done|].
      rewrite removeFromGroup_spliceOut, decide_True by done.
      destruct (spliceOut s (CFBundleURLSchemes g)); [|done].
      by apply elem_of_nil in Hin. }
  split; [|by exists g'].
  apply hasScheme_groupsOf. by exists g'.
Qed.

Lemma removeScheme_leaves_duplicate_witness :
  hasScheme "exp"
    (removeScheme (Some "exp")
       {| CFBundleURLTypes := Some [groupWith ["exp"; "myapp"; "exp"]]; otherKeys := ∅ |})
  = true.
Proof.
  refine (proj1 (removeScheme_leaves_duplicate "exp"
                   {| CFBundleURLTypes := Some [groupWith ["exp"; "myapp"; "exp"]];
                      otherKeys := ∅ |}
                   [groupWith ["exp"; "myapp"; "exp"]] (groupWith ["exp"; "myapp"; "exp"])
                   [] ["myapp"] [] eq_refl _ eq_refl)).
  apply list_elem_of_singleton. reflexivity.
Defined.

(** *** The invariant on scheme strings *)

Lemma getScheme_schemeConfig s : getScheme (schemeConfig s) = [s].
Proof. reflexivity. Qed.

Lemma bundleSchemes_nonEmpty config : Forall (fun x => x ≠ EmptyString) (bundleSchemes config).
Proof.
  unfold bundleSchemes. destruct (ios config ≫= bundleIdentifier) as [b|]; [|done].
  destruct (truthy b) eqn:Hb; [|done]. apply truthy_spec in Hb. by repeat constructor.
Qed.

Lemma removeFromGroup_nonEmpty s g g' :
  Forall (fun x => x ≠ EmptyString) (CFBundleURLSchemes g) →
  removeFromGroup s g = Some g' →
  Forall (fun x => x ≠ EmptyString) (CFBundleURLSchemes g').
Proof.
  intros Hg. unfold removeFromGroup, splice1.
  destruct (indexOf s (CFBundleURLSchemes g)) as [i|]; [|by intros [= <-]].
  destruct (length _ =? 0); [done|]. intros [= <-]. simpl. by apply Forall_delete.
Qed.

(** The claim C5 fails for [setScheme]: a config whose scheme is the empty
    string passes the [typeof] filter of [getScheme], and the empty string is
    stored in a document that held no scheme at all. *)
Lemma setScheme_stores_empty_scheme :
  schemesNonEmpty emptyPlist ∧
  CFBundleURLTypes (setScheme (schemeConfig EmptyString) emptyPlist)
    = Some [groupWith [EmptyString]] ∧
  ¬ schemesNonEmpty (setScheme (schemeConfig EmptyString) emptyPlist).
Proof.
  split_and!; [by constructor | reflexivity |].
  intros H. unfold schemesNonEmpty in H. simpl in H.
  apply Forall_cons in H as [H _]. simpl in H. apply Forall_cons in H as [H _]. done.
Qed.

(** C5, as the code has it. From a document whose stored scheme strings are
    all non-empty, [appendScheme] and [removeScheme] return such a document
    for every input (null, the empty string, any string), and [setScheme]
    does when every scheme that [getScheme] reads from the config and from
    its [ios] part is non-empty. *)
Theorem schemesNonEmpty_preserved p :
  schemesNonEmpty p →
  (∀ o : option string, schemesNonEmpty (appendScheme o p)) ∧
  (∀ o : option string, schemesNonEmpty (removeScheme o p)) ∧
  (∀ config,
     Forall (fun x => x ≠ EmptyString)
       (getScheme config ++ getScheme (default emptyObject (ios config))) →
     schemesNonEmpty (setScheme config p)).
Proof.
  intros Hp. split_and!.
  - intros [s|]; [|done]. destruct (decide (s = EmptyString)) as [->|Hs]; [done|].
    unfold schemesNonEmpty. rewrite (appendScheme_truthy s p Hs).
    unfold groupsOf at 1. simpl.
    apply Forall_app. split; [done|]. by repeat constructor.
  - intros [s|]; [|done]. destruct (decide (s = EmptyString)) as [->|Hs]; [done|].
    rewrite (removeScheme_truthy s p Hs).
    destruct (CFBundleURLTypes p) as [gs|] eqn:Hgs; [|done].
    unfold schemesNonEmpty, groupsOf in *. rewrite Hgs in Hp. simpl in *.
    apply Forall_forall. intros g' Hg'.
    apply list_elem_of_omap in Hg' as (g & Hg & Hrem).
    eapply removeFromGroup_nonEmpty; [|done].
    by apply (proj1 (Forall_forall _ _) Hp).
  - intros config Hconfig. rewrite setScheme_collected.
    destruct (collectSchemes config) as [|x l] eqn:Hcollected; [done|].
    rewrite <- Hcollected, collectSchemes_eq.
    unfold schemesNonEmpty, groupsOf. simpl. constructor; [|done]. simpl.
    rewrite app_assoc. apply Forall_app. split; [done | apply bundleSchemes_nonEmpty].
Qed.

Lemma schemesNonEmpty_preserved_witness :
  schemesNonEmpty twoGroups ∧
  schemesNonEmpty (appendScheme (Some EmptyString) twoGroups) ∧
  schemesNonEmpty (removeScheme (Some "exp") twoGroups).
Proof.
  assert (H : schemesNonEmpty twoGroups) by (by vm_compute; repeat constructor).
  split; [exact H|].
  split.
  - exact (proj1 (schemesNonEmpty_preserved twoGroups H) (Some EmptyString)).
  - exact (proj1 (proj2 (schemesNonEmpty_preserved twoGroups H)) (Some "exp")).
Defined.

(** *** Reading the schemes back *)

Lemma fold_left_schemes (gs : list URLScheme) (acc : list string) :
  fold_left (fun schemes g => schemes ++ CFBundleURLSchemes g) gs acc =
  acc ++ flat_map CFBundleURLSchemes gs.
Proof.
  revert acc. induction gs as [|g gs IH]; intros acc; simpl.
  - by rewrite app_nil_r.
  - by rewrite IH, app_assoc.
Qed.

Lemma getSchemesFromPlist_flat p :
  getSchemesFromPlist p = flat_map CFBundleURLSchemes (groupsOf p).
Proof.
  unfold getSchemesFromPlist, groupsOf. destruct (CFBundleURLTypes p) as [gs|]; [|done].
  simpl. by rewrite fold_left_schemes.
Qed.

Lemma elem_of_flat_schemes x (gs : list URLScheme) :
  x ∈ flat_map CFBundleURLSchemes gs ↔ ∃ g, g ∈ gs ∧ x ∈ CFBundleURLSchemes g.
Proof.
  rewrite list_elem_of_In, in_flat_map. split.
  - intros (g & Hg & Hx). exists g. by rewrite !list_elem_of_In.
  - intros (g & Hg & Hx). exists g. by rewrite <- !list_elem_of_In.
Qed.

Lemma hasScheme_false s p :
  hasScheme s p = false ↔ ∀ g, g ∈ groupsOf p → s ∉ CFBundleURLSchemes g.
Proof.
  rewrite <- not_true_iff_false, hasScheme_groupsOf. split.
  - intros Hno g Hg Hs. apply Hno. by exists g.
  - intros Hall (g & Hg & Hs). by apply (Hall g).
Qed.

(** X1. [hasScheme] and [getSchemesFromPlist] agree: a scheme is found in
    the document exactly when the list read back from it holds the scheme. *)
Theorem hasScheme_getSchemesFromPlist s p :
  hasScheme s p = true ↔ s ∈ getSchemesFromPlist p.
Proof.
  by rewrite hasScheme_groupsOf, getSchemesFromPlist_flat, elem_of_flat_schemes.
Qed.

(** X2. After appending a non-empty scheme, the list read back is the list
    read before, followed by that scheme. *)
Theorem appendScheme_getSchemesFromPlist s p :
  s ≠ EmptyString →
  getSchemesFromPlist (appendScheme (Some s) p) = getSchemesFromPlist p ++ [s].
Proof.
  intros Hs. rewrite !getSchemesFromPlist_flat, (appendScheme_truthy s p Hs).
  unfold groupsOf at 1. simpl. by rewrite flat_map_app.
Qed.

Lemma appendScheme_getSchemesFromPlist_witness :
  getSchemesFromPlist (appendScheme (Some "com.example.app") twoGroups) =
  ["myapp"; "exp"; "fb123"] ++ ["com.example.app"].
Proof.
  exact (appendScheme_getSchemesFromPlist "com.example.app" twoGroups ltac:(discriminate)).
Defined.

(** X3. After appending a non-empty scheme, [hasScheme] finds that scheme,
    and finds any other string exactly when it found it before. *)
Theorem appendScheme_hasScheme s x p :
  s ≠ EmptyString →
  hasScheme x (appendScheme (Some s) p) = true ↔ x = s ∨ hasScheme x p = true.
Proof.
  intros Hs. rewrite !hasScheme_groupsOf, (appendScheme_truthy s p Hs).
  unfold groupsOf at 1. simpl. split.
  - intros (g & Hg & Hx). apply elem_of_app in Hg as [Hg|Hg].
    + right. by exists g.
    + apply list_elem_of_singleton in Hg as ->. simpl in Hx.
      apply list_elem_of_singleton in Hx. by left.
  - intros [->|(g & Hg & Hx)].
    + exists (groupWith [s]). split.
      * apply elem_of_app. right. by apply list_elem_of_singleton.
      * by apply list_elem_of_singleton.
    + exists g. split; [|done]. apply elem_of_app. by left.
Qed.

Lemma appendScheme_hasScheme_witness :
  hasScheme "fb123" (appendScheme (Some "com.example.app") twoGroups) = true.
Proof.
  refine (proj2 (appendScheme_hasScheme "com.example.app" "fb123" twoGroups _) _).
  - discriminate.
  - right. reflexivity.
Defined.

(** X4. [appendScheme] is not idempotent: appending the same non-empty scheme
    twice leaves two groups for it at the end of the list. *)
Theorem appendScheme_twice s p :
  s ≠ EmptyString →
  groupsOf (appendScheme (Some s) (appendScheme (Some s) p)) =
  groupsOf p ++ [groupWith [s]; groupWith [s]].
Proof.
  intros Hs. rewrite (appendScheme_truthy s _ Hs), (appendScheme_truthy s p Hs).
  unfold groupsOf at 1 2. simpl. by rewrite <- app_assoc.
Qed.

Lemma appendScheme_twice_witness :
  groupsOf (appendScheme (Some "exp") (appendScheme (Some "exp") emptyPlist)) =
  [] ++ [groupWith ["exp"]; groupWith ["exp"]].
Proof. exact (appendScheme_twice "exp" emptyPlist ltac:(discriminate)). Defined.

(** X5. Removing a scheme that no group lists returns the document as it
    was: no group is dropped or changed. *)
Theorem removeScheme_absent s p :
  hasScheme s p = false → removeScheme (Some s) p = p.
Proof.
  intros Hno. destruct (decide (s = EmptyString)) as [->|Hs]; [done|].
  rewrite (removeScheme_truthy s p Hs).
  rewrite hasScheme_false in Hno. unfold groupsOf in Hno.
  destruct p as [[gs|] keys]; simpl in *; [|done].
  by rewrite omap_removeFromGroup_absent.
Qed.

Lemma removeScheme_absent_witness :
  removeScheme (Some "unknown") twoGroups = twoGroups.
Proof. exact (removeScheme_absent "unknown" twoGroups eq_refl). Defined.

(** *** What removing a scheme keeps and takes *)

Lemma spliceOut_other s x l : x ≠ s → x ∈ spliceOut s l ↔ x ∈ l.
Proof.
  intros Hne. induction l as [|y l IH]; [done|]. rewrite spliceOut_cons.
  destruct (decide (y = s)) as [->|Hy].
  - rewrite elem_of_cons. split; [by right | by intros [?|?]].
  - by rewrite !elem_of_cons, IH.
Qed.

Lemma spliceOut_NoDup s l : NoDup l → s ∉ spliceOut s l.
Proof.
  induction l as [|y l IH]; intros Hl.
  - apply not_elem_of_nil.
  - rewrite spliceOut_cons. apply NoDup_cons in Hl as [Hy Hl].
    destruct (decide (y = s)) as [->|Hne]; [done|].
    apply not_elem_of_cons. split; [congruence | by apply IH].
Qed.

Lemma spliceOut_length_elem s l : s ∈ l → S (length (spliceOut s l)) = length l.
Proof.
  induction l as [|y l IH]; intros Hin; [by apply elem_of_nil in Hin|].
  rewrite spliceOut_cons. destruct (decide (y = s)) as [->|Hne]; [done|].
  apply elem_of_cons in Hin as [->|Hin]; [done|]. simpl. by rewrite IH.
Qed.

Lemma spliceOut_absent s l : s ∉ l → spliceOut s l = l.
Proof. intros H. apply indexOf_None in H. unfold spliceOut. by rewrite H. Qed.

(** The group the callback returns is the group it was given with its
    schemes spliced; it returns none exactly for the group listing only the
    scheme. *)
Lemma removeFromGroup_Some s g g' :
  removeFromGroup s g = Some g' →
  CFBundleURLSchemes g' = spliceOut s (CFBundleURLSchemes g) ∧
  otherProperties g' = otherProperties g ∧
  CFBundleURLSchemes g' ≠ [] ∨ g' = g ∧ s ∉ CFBundleURLSchemes g.
Proof.
  rewrite removeFromGroup_spliceOut.
  destruct (decide (s ∈ CFBundleURLSchemes g)) as [Hin|Hout].
  - destruct (spliceOut s (CFBundleURLSchemes g)) as [|y l] eqn:Hsp; [done|].
    intros [= <-]. simpl. by left.
  - intros [= <-]. by right.
Qed.

Lemma removeFromGroup_schemes s g g' :
  removeFromGroup s g = Some g' →
  CFBundleURLSchemes g' = spliceOut s (CFBundleURLSchemes g).
Proof.
  intros H. apply removeFromGroup_Some in H as [(H & _)|[-> Hout]]; [done|].
  by rewrite spliceOut_absent.
Qed.

Lemma removeFromGroup_None s g :
  removeFromGroup s g = None ↔ CFBundleURLSchemes g = [s].
Proof.
  rewrite removeFromGroup_spliceOut, <- spliceOut_empty.
  destruct (decide (s ∈ CFBundleURLSchemes g)) as [Hin|Hout].
  - destruct (spliceOut s (CFBundleURLSchemes g)); split; try done. by intros [_ ?].
  - split; [done | by intros [? _]].
Qed.

Lemma length_omap_le {A B : Type} (f : A → option B) (l : list A) :
  length (omap f l) ≤ length l.
Proof. induction l as [|a l IH]; csimpl; [lia|]. destruct (f a); simpl; lia. Qed.

Lemma groupsOf_removeScheme s p :
  s ≠ EmptyString →
  groupsOf (removeScheme (Some s) p) = omap (removeFromGroup s) (groupsOf p).
Proof.
  intros Hs. rewrite (removeScheme_truthy s p Hs). unfold groupsOf.
  destruct (CFBundleURLTypes p) as [gs|] eqn:Hgs; simpl; [done | by rewrite Hgs].
Qed.

(** X6. When no group lists a scheme more than once, removing a non-empty
    scheme removes it for good: [hasScheme] no longer finds it. *)
Theorem removeScheme_NoDup s p :
  s ≠ EmptyString →
  (∀ g, g ∈ groupsOf p → NoDup (CFBundleURLSchemes g)) →
  hasScheme s (removeScheme (Some s) p) = false.
Proof.
  intros Hs Hnodup. apply hasScheme_false. intros g' Hg'.
  rewrite (groupsOf_removeScheme s p Hs) in Hg'.
  apply list_elem_of_omap in Hg' as (g & Hg & Hrem).
  rewrite (removeFromGroup_schemes _ _ _ Hrem). by apply spliceOut_NoDup, Hnodup.
Qed.

Lemma removeScheme_NoDup_witness :
  hasScheme "exp" (removeScheme (Some "exp") threeGroups) = false.
Proof.
  refine (removeScheme_NoDup "exp" threeGroups _ _); [discriminate|].
  apply (proj1 (Forall_forall (fun g => NoDup (CFBundleURLSchemes g)) _)).
  repeat constructor; simpl; intros H;
    repeat (apply elem_of_cons in H as [H|H]; [discriminate|]);
    by apply elem_of_nil in H.
Defined.

(** X7. Removing a scheme leaves every other scheme where it was: [hasScheme]
    answers for a different string as it did before. *)
Theorem removeScheme_other s x p :
  x ≠ s → hasScheme x (removeScheme (Some s) p) = hasScheme x p.
Proof.
  intros Hne. destruct (decide (s = EmptyString)) as [->|Hs]; [done|].
  apply eq_true_iff_eq. rewrite !hasScheme_groupsOf, (groupsOf_removeScheme s p Hs).
  split.
  - intros (g' & Hg' & Hx). apply list_elem_of_omap in Hg' as (g & Hg & Hrem).
    exists g. split; [done|].
    rewrite (removeFromGroup_schemes _ _ _ Hrem) in Hx. by apply spliceOut_other in Hx.
  - intros (g & Hg & Hx). destruct (removeFromGroup s g) as [g'|] eqn:Hrem.
    + exists g'. split; [apply list_elem_of_omap; by exists g|].
      rewrite (removeFromGroup_schemes _ _ _ Hrem). by apply spliceOut_other.
    + apply removeFromGroup_None in Hrem. rewrite Hrem in Hx.
      by apply list_elem_of_singleton in Hx.
Qed.

Lemma removeScheme_other_witness :
  hasScheme "myapp" (removeScheme (Some "exp") threeGroups) = hasScheme "myapp" threeGroups.
Proof. exact (removeScheme_other "exp" "myapp" threeGroups ltac:(discriminate)). Defined.

(** X8. [removeScheme] never adds a group, and never leaves a group with an
    empty list behind: a document whose groups all list a scheme keeps that
    property. *)
Theorem removeScheme_no_empty_group (o : option string) p :
  length (groupsOf (removeScheme o p)) ≤ length (groupsOf p) ∧
  (Forall (fun g => CFBundleURLSchemes g ≠ []) (groupsOf p) →
   Forall (fun g => CFBundleURLSchemes g ≠ []) (groupsOf (removeScheme o p))).
Proof.
  destruct o as [s|]; [|done].
  destruct (decide (s = EmptyString)) as [->|Hs]; [done|].
  rewrite (groupsOf_removeScheme s p Hs).
  split; [apply length_omap_le|].
  intros Hgs. apply Forall_forall. intros g' Hg'.
  apply list_elem_of_omap in Hg' as (g & Hg & Hrem).
  apply removeFromGroup_Some in Hrem as [(_ & _ & Hne)|[-> _]]; [done|].
  by apply (proj1 (Forall_forall _ _) Hgs).
Qed.

Lemma removeScheme_no_empty_group_witness :
  Forall (fun g => CFBundleURLSchemes g ≠ []) (groupsOf (removeScheme (Some "fb123") threeGroups)).
Proof.
  refine (proj2 (removeScheme_no_empty_group (Some "fb123") threeGroups) _).
  repeat constructor; discriminate.
Defined.

(** X9. Appending a non-empty scheme that the document does not have and
    removing it again gives back the groups and the other keys of the
    document. *)
Theorem removeScheme_appendScheme s p :
  s ≠ EmptyString →
  hasScheme s p = false →
  groupsOf (removeScheme (Some s) (appendScheme (Some s) p)) = groupsOf p ∧
  otherKeys (removeScheme (Some s) (appendScheme (Some s) p)) = otherKeys p.
Proof.
  intros Hs Hno. rewrite (removeScheme_truthy s _ Hs), (appendScheme_truthy s p Hs).
  simpl. split; [|done]. unfold groupsOf at 1. simpl.
  rewrite omap_app, omap_removeFromGroup_absent by by apply hasScheme_false.
  csimpl. rewrite (proj2 (removeFromGroup_None s (groupWith [s])) eq_refl).
  by rewrite app_nil_r.
Qed.

Lemma removeScheme_appendScheme_witness :
  groupsOf (removeScheme (Some "com.example.app") (appendScheme (Some "com.example.app") twoGroups))
  = groupsOf twoGroups.
Proof.
  exact (proj1 (removeScheme_appendScheme "com.example.app" twoGroups
                  ltac:(discriminate) eq_refl)).
Defined.

Lemma removeFromGroup_count s g :
  length (from_option CFBundleURLSchemes [] (removeFromGroup s g)) +
  (if decide (s ∈ CFBundleURLSchemes g) then 1 else 0) =
  length (CFBundleURLSchemes g).
Proof.
  destruct (removeFromGroup s g) as [g'|] eqn:Hrem; simpl.
  - rewrite (removeFromGroup_schemes _ _ _ Hrem).
    destruct (decide (s ∈ CFBundleURLSchemes g)) as [Hin|Hout].
    + rewrite <- (spliceOut_length_elem s _ Hin). lia.
    + rewrite spliceOut_absent by done. lia.
  - apply removeFromGroup_None in Hrem. rewrite Hrem.
    rewrite decide_True; [done | by apply list_elem_of_singleton].
Qed.

(** X10. Removing a non-empty scheme takes exactly one string out of every
    group that lists it: the list read back is shorter by the number of such
    groups. *)
Theorem removeScheme_count s p :
  s ≠ EmptyString →
  length (getSchemesFromPlist (removeScheme (Some s) p)) +
  length (filter (fun g => s ∈ CFBundleURLSchemes g) (groupsOf p)) =
  length (getSchemesFromPlist p).
Proof.
  intros Hs. rewrite !getSchemesFromPlist_flat, (groupsOf_removeScheme s p Hs).
  induction (groupsOf p) as [|g gs IH]; [done|]. csimpl. rewrite filter_cons.
  pose proof (removeFromGroup_count s g) as Hg. rewrite length_app.
  destruct (removeFromGroup s g) as [g'|]; simpl in *; rewrite ?length_app;
    destruct (decide (s ∈ CFBundleURLSchemes g)); simpl; lia.
Qed.

Lemma removeScheme_count_witness :
  length (getSchemesFromPlist (removeScheme (Some "exp") threeGroups)) +
  length (filter (fun g => "exp" ∈ CFBundleURLSchemes g) (groupsOf threeGroups)) =
  length (getSchemesFromPlist threeGroups).
Proof. exact (removeScheme_count "exp" threeGroups ltac:(discriminate)). Defined.

(** *** Setting the schemes *)

(** X11. [setScheme] is idempotent, and when its config yields a scheme it
    overwrites what an earlier [setScheme] stored: the last config wins. *)
Theorem setScheme_overwrites config config' p :
  setScheme config (setScheme config p) = setScheme config p ∧
  (collectSchemes config ≠ [] →
   setScheme config (setScheme config' p) = setScheme config p).
Proof.
  rewrite !(setScheme_collected config).
  destruct (collectSchemes config) as [|x l]; [done|].
  split; [done|]. intros _. rewrite (setScheme_collected config').
  by destruct (collectSchemes config').
Qed.

Lemma setScheme_overwrites_witness :
  setScheme (schemeConfig "exp") (setScheme (schemeConfig "myapp") twoGroups) =
  setScheme (schemeConfig "exp") twoGroups.
Proof.
  exact (proj2 (setScheme_overwrites (schemeConfig "exp") (schemeConfig "myapp") twoGroups)
           ltac:(discriminate)).
Defined.

(** X12. Of an array, [getScheme] keeps the string items and nothing else:
    a string is returned exactly when it is an item of the array, no more
    strings are returned than the array has items, and an array of strings
    only is returned whole, in order. *)
Theorem getScheme_array {C : Type} `{SchemeConfig C} (config : C) (items : list JSONValue) :
  configScheme config = Some (JArray items) →
  (∀ x, x ∈ getScheme config ↔ JString x ∈ items) ∧
  length (getScheme config) ≤ length items ∧
  (∀ l, items = JString <$> l → getScheme config = l).
Proof.
  intros Hitems. unfold getScheme. rewrite Hitems. split_and!.
  - intros x. rewrite list_elem_of_omap. split.
    + intros (v & Hv & Hx). destruct v; simpl in Hx; try done. by injection Hx as ->.
    + intros Hx. by exists (JString x).
  - apply length_omap_le.
  - intros l Hl. rewrite Hl. clear. induction l as [|y l IH]; csimpl; [done|].
    by rewrite IH.
Qed.

Lemma getScheme_array_witness :
  getScheme {| scheme := Some (JArray [JString "myapp"; JNumber 7; JNull; JString "exp"]);
               ios := None |}
  = ["myapp"; "exp"] ∧
  getScheme {| scheme := Some (JArray (JString <$> ["myapp"; "exp"])); ios := None |}
  = ["myapp"; "exp"].
Proof.
  split; [reflexivity|].
  exact (proj2 (proj2 (getScheme_array
                         {| scheme := Some (JArray (JString <$> ["myapp"; "exp"])); ios := None |}
                         (JString <$> ["myapp"; "exp"]) eq_refl))
           ["myapp"; "exp"] eq_refl).
Defined.

(** X13. Reading the schemes back after [setScheme] yields the schemes of the
    config, then those of its [ios] part, then the truthy bundle identifier;
    when the config yields none of them, it yields what the document held. *)
Theorem getSchemesFromPlist_setScheme_all config p :
  getSchemesFromPlist (setScheme config p) =
  match getScheme config ++ getScheme (default emptyObject (ios config))
        ++ bundleSchemes config with
  | [] => getSchemesFromPlist p
  | collected => collected
  end.
Proof.
  rewrite setScheme_collected, collectSchemes_eq.
  by destruct (getScheme config ++ _) as [|x l].
Qed.

End SchemeList.

(** * Facts about the git helper *)

Section GitHelper.

Implicit Types (w : World) (tr : list Obs).

(** *** Runs and their observations *)

Lemma promptText_spec message initial validate inputs : ∀ w a w',
  promptText message initial validate w inputs = (a, w') →
  ∃ rejected obs,
    Forall (fun input => validate (valueOf initial input) = false) rejected ∧
    trace w' = trace w ++ turnedDown message rejected ++ obs ∧
    match a with
    | Answered value =>
        ∃ input, value = valueOf initial input ∧ validate value = true ∧
                 obs = [Submitted message input true]
    | Unanswered => obs = []
    | Failed _ =>
        ∃ input, validate (valueOf initial input) = false ∧
                 obs = [Submitted message input false]
    end.
Proof.
  induction inputs as [|input inputs IH]; intros w a w' H; simpl in H.
  - injection H as <- <-. exists [], []. simpl. by rewrite app_nil_r.
  - destruct (validate (valueOf initial input)) eqn:Hv.
    + injection H as <- <-. exists [], [Submitted message input true].
      split_and!; [done | done |]. by exists input.
    + destruct (onInvalid w) as [e|].
      * injection H as <- <-. exists [], [Submitted message input false].
        split_and!; [done | done |]. by exists input.
      * apply IH in H as (rejected & obs & Hrej & Htr & Ha).
        exists (input :: rejected), obs. split_and!; [by constructor | | done].
        simpl in *. by rewrite <- app_assoc in Htr.
Qed.

Lemma handle_mayAnswer {X : Type} (ev : Event X) w a w' :
  handle ev w = (a, w') →
  ∃ obs, mayAnswer ev obs a ∧ trace w' = trace w ++ obs.
Proof.
  destruct ev; simpl.
  - intros [= <- <-]. exists []. rewrite app_nil_r. eauto.
  - intros [= <- <-]. exists [Spawned args]. eauto.
  - intros [= <- <-]. by exists [Logged line].
  - destruct (confirmations w) as [|answer answers]; intros [= <- <-].
    + exists []. by rewrite app_nil_r.
    + by exists [Confirmed message answer].
  - intros H. apply promptText_spec in H as (rejected & obs & Hrej & Htr & Ha).
    exists (turnedDown message rejected ++ obs). split; [|done]. exists rejected.
    split; [done|]. destruct a as [value| |e].
    + destruct Ha as (input & -> & Hv & ->). by exists input.
    + subst obs. by rewrite app_nil_r.
    + destruct Ha as (input & Hv & ->). by exists input.
Qed.

(** [post] is sound for [run]: what it promises of every world holds of the
    run in each of them. *)
Lemma post_sound {A : Type} (p : Prog A) : ∀ (Q : list Obs → Outcome A → Prop) w,
  post p Q →
  ∃ new, trace (snd (run p w)) = trace w ++ new ∧ Q new (fst (run p w)).
Proof.
  induction p as [a|e|X ev k IH]; intros Q w Hpost; simpl in *.
  - exists []. by rewrite app_nil_r.
  - exists []. by rewrite app_nil_r.
  - destruct (handle ev w) as [a w'] eqn:Hh.
    destruct (handle_mayAnswer ev w a w' Hh) as (obs & Hans & Htr).
    specialize (Hpost obs a Hans). destruct a as [x| |e]; simpl.
    + destruct (IH x _ w' Hpost) as (new & Hnew & HQ).
      exists (obs ++ new). split; [|done]. by rewrite Hnew, Htr, app_assoc.
    + by exists obs.
    + by exists obs.
Qed.

Lemma post_observed {A : Type} (p : Prog A) (Q : list Obs → Outcome A → Prop) w :
  post p Q → Q (observed p w) (fst (run p w)).
Proof.
  intros Hpost. destruct (post_sound p Q w Hpost) as (new & Hnew & HQ).
  unfold observed. by rewrite Hnew, drop_app_length.
Qed.

Lemma post_True {A : Type} (p : Prog A) : post p (fun _ _ => True).
Proof.
  induction p as [a|e|X ev k IH]; simpl; try done.
  intros obs [x| |e] _; [apply IH | done | done].
Qed.

Lemma run_trace {A : Type} (p : Prog A) w :
  trace (snd (run p w)) = trace w ++ observed p w.
Proof.
  destruct (post_sound p _ w (post_True p)) as (new & Hnew & _).
  unfold observed. by rewrite Hnew, drop_app_length.
Qed.

(** *** Guarded traces *)

Lemma guarded_turnedDown question confirmed message rejected tr :
  guarded question confirmed (turnedDown message rejected ++ tr) =
  guarded question confirmed tr.
Proof. induction rejected as [|input rejected IH]; simpl; done. Qed.

Lemma guarded_turnedDown_only question confirmed message rejected :
  guarded question confirmed (turnedDown message rejected) = true.
Proof. induction rejected as [|input rejected IH]; simpl; done. Qed.

Lemma guarded_spec question tr : ∀ confirmed pre args post,
  guarded question confirmed tr = true →
  tr = pre ++ Spawned args :: post →
  mutates args = true →
  confirmed = true ∨ Confirmed question true ∈ pre.
Proof.
  induction tr as [|o tr IH]; intros confirmed pre args post Hg Htr Hm.
  - by destruct pre.
  - destruct pre as [|o' pre]; simpl in Htr; injection Htr as -> Htr.
    + simpl in Hg. rewrite Hm in Hg. simpl in Hg. rewrite orb_false_r in Hg.
      apply andb_true_iff in Hg as [Hc _]. by left.
    + assert (∀ c', guarded question c' tr = true →
                c' = true ∨ Confirmed question true ∈ pre) as Hrec.
      { intros c' Hc'. by eapply IH. }
      destruct o' as [args'|line|message answer|message input accepted]; simpl in Hg.
      * apply andb_true_iff in Hg as [_ Hg].
        destruct (Hrec _ Hg) as [?|?]; [by left | right; by apply elem_of_cons; right].
      * destruct (Hrec _ Hg) as [?|?]; [by left | right; by apply elem_of_cons; right].
      * destruct (Hrec _ Hg) as [Hc|?]; [| right; by apply elem_of_cons; right].
        apply orb_true_iff in Hc as [?|Hc]; [by left|].
        apply andb_true_iff in Hc as [Hq ->]. apply bool_decide_eq_true in Hq as ->.
        right. apply elem_of_cons. by left.
      * destruct (Hrec _ Hg) as [?|?]; [by left | right; by apply elem_of_cons; right].
Qed.

(** *** The clean working tree *)

(** C6. When the status subcommand has run and printed [out],
    [ensureGitStatusIsCleanAsync] throws exactly when [out] is not empty, and
    what it throws is the [DirtyGitTreeError] with its message; on an empty
    output it returns. *)
Theorem ensureGitStatusIsCleanAsync_dirty_iff w out :
  gitSettles w ["status"; "-s"; "-uno"] = Resolved out →
  ((∃ e, fst (run ensureGitStatusIsCleanAsync w) = Threw e) ↔ out ≠ EmptyString) ∧
  (out ≠ EmptyString →
   fst (run ensureGitStatusIsCleanAsync w) =
   Threw (DirtyGitTreeError
            "Please commit all changes before building your project. Aborting...")) ∧
  (out = EmptyString → fst (run ensureGitStatusIsCleanAsync w) = Returned tt).
Proof.
  intros Hout. unfold ensureGitStatusIsCleanAsync. simpl. rewrite Hout. simpl.
  destruct out as [|c out]; simpl; split_and!; try done.
  - split; [intros [e He]; discriminate | done].
  - split; [discriminate | eauto].
Qed.

(** A status subcommand that fails is thrown as it is. *)
Lemma ensureGitStatusIsCleanAsync_rejected w reason :
  gitSettles w ["status"; "-s"; "-uno"] = Rejected reason →
  fst (run ensureGitStatusIsCleanAsync w) =
  Threw (SpawnFailure ["status"; "-s"; "-uno"] reason).
Proof.
  intros Hout. unfold ensureGitStatusIsCleanAsync. simpl. by rewrite Hout.
Qed.

Lemma ensureGitStatusIsCleanAsync_dirty_iff_witness :
  gitSettles (sampleWorld true " M app.json" [] []) ["status"; "-s"; "-uno"]
    = Resolved " M app.json" ∧
  fst (run ensureGitStatusIsCleanAsync (sampleWorld true " M app.json" [] [])) =
  Threw (DirtyGitTreeError
           "Please commit all changes before building your project. Aborting...").
Proof.
  split; [reflexivity|].
  refine (proj1 (proj2 (ensureGitStatusIsCleanAsync_dirty_iff
                          (sampleWorld true " M app.json" [] []) " M app.json" eq_refl)) _).
  discriminate.
Defined.

(** *** Initialising the repository *)

(** One answer of the world: name what it left in the trace and what it
    answered, by the kind of the event, then follow the program on it. *)
Ltac answered :=
  let obs := fresh "obs" in
  let a := fresh "a" in
  let H := fresh "Hans" in
  intros obs a H; simpl in H;
  lazymatch type of H with
  | _ ∧ (∃ _, _ = Answered _) => destruct H as [-> [? ->]]
  | _ ∧ _ = Answered tt => destruct H as [-> ->]
  | ∃ _, _ =>
      destruct H as (? & ? & H);
      destruct a; [destruct H as (? & -> & ? & ->) | subst obs | destruct H as (? & ? & ->)]
  | _ => destruct a; [subst obs | subst obs | destruct H]
  end;
  repeat match goal with
         | r : SpawnResult |- _ => destruct r
         | b : bool |- _ => destruct b
         end;
  simpl.

Ltac guarded_trace :=
  simpl; rewrite <- ?app_assoc, ?guarded_turnedDown, ?guarded_turnedDown_only; simpl; done.

Lemma ensureGitRepoExists_guarded :
  post ensureGitRepoExists
    (fun tr _ =>
       guarded "Would you like to run 'git init' in the current directory?" false tr = true).
Proof.
  unfold ensureGitRepoExists. simpl.
  answered. destruct (found _); simpl; [|done].
  repeat (answered; try guarded_trace).
Qed.

(** C7. In a world where git is installed and the directory is no
    repository, an operator who declines the prompt makes
    [ensureGitRepoExists] throw its error, and no subcommand that changes the
    repository is among the observations of the run; and in every world, a
    subcommand that changes the repository is observed only after the
    operator has answered yes to that prompt. *)
Theorem ensureGitRepoExists_declined w :
  (∀ reason answers,
     found (gitPath w) = true →
     gitSettles w ["rev-parse"; "--git-dir"] = Rejected reason →
     confirmations w = false :: answers →
     fst (run ensureGitRepoExists w) =
       Threw (Error "A git repository is required for building your project. Initialize it and run this command again.") ∧
     ∀ args, Spawned args ∈ observed ensureGitRepoExists w → mutates args = false) ∧
  (∀ pre args post,
     observed ensureGitRepoExists w = pre ++ Spawned args :: post →
     mutates args = true →
     Confirmed "Would you like to run 'git init' in the current directory?" true ∈ pre).
Proof.
  split.
  - intros reason answers Hfound Hrepo Hanswer. unfold gitSettles in Hrepo.
    unfold observed, ensureGitRepoExists. simpl.
    rewrite Hfound. simpl. unfold gitSettles. rewrite Hrepo. simpl.
    rewrite Hanswer. simpl. split; [done|].
    rewrite <- !app_assoc, drop_app_length. simpl. intros args Hin.
    repeat (apply elem_of_cons in Hin as [Hin|Hin]; [by simplify_eq|]).
    by apply elem_of_nil in Hin.
  - intros pre args post Hobs Hm.
    pose proof (post_observed _ _ w ensureGitRepoExists_guarded) as Hg. simpl in Hg.
    destruct (guarded_spec _ _ _ _ _ _ Hg Hobs Hm) as [?|?]; done.
Qed.

Lemma ensureGitRepoExists_declined_witness :
  fst (run ensureGitRepoExists (sampleWorld false EmptyString [false] [])) =
  Threw (Error "A git repository is required for building your project. Initialize it and run this command again.").
Proof.
  exact (proj1 (proj1 (ensureGitRepoExists_declined
                         (sampleWorld false EmptyString [false] []))
                 "fatal: not a git repository" [] eq_refl eq_refl eq_refl)).
Defined.

(** *** The commit message *)














(** *** The invocations of a run *)

Lemma invocations_app tr1 tr2 :
  invocations (tr1 ++ tr2) = invocations tr1 ++ invocations tr2.
Proof. apply omap_app. Qed.

Lemma invocations_turnedDown message rejected :
  invocations (turnedDown message rejected) = [].
Proof. induction rejected as [|input rejected IH]; [done|]. exact IH. Qed.

Lemma invocations_Spawned args tr : invocations (Spawned args :: tr) = args :: invocations tr.
Proof. reflexivity. Qed.

Lemma invocations_Logged line tr : invocations (Logged line :: tr) = invocations tr.
Proof. reflexivity. Qed.

Lemma invocations_Confirmed message answer tr :
  invocations (Confirmed message answer :: tr) = invocations tr.
Proof. reflexivity. Qed.

Lemma invocations_Submitted message input accepted tr :
  invocations (Submitted message input accepted :: tr) = invocations tr.
Proof. reflexivity. Qed.

Lemma invocations_nil : invocations [] = [].
Proof. reflexivity. Qed.

Create Rewrite HintDb trace.

#[local] Hint Rewrite invocations_app invocations_turnedDown invocations_Spawned
  invocations_Logged invocations_Confirmed invocations_Submitted invocations_nil
  app_nil_r app_nil_l : trace.

(** The observations of a run that starts by one answered event. *)
Lemma observed_start w (new : list Obs) : drop (length (trace w)) (trace w ++ new) = new.
Proof. apply drop_app_length. Qed.

(** X14. [doesGitRepoExist] never throws: it runs [git rev-parse --git-dir]
    once, and returns true when that succeeds and false when it fails. *)
Theorem doesGitRepoExist_returns w :
  fst (run doesGitRepoExist w) =
    Returned (match gitSettles w ["rev-parse"; "--git-dir"] with
              | Resolved _ => true
              | Rejected _ => false
              end) ∧
  observed doesGitRepoExist w = [Spawned ["rev-parse"; "--git-dir"]].
Proof.
  unfold observed, doesGitRepoExist, gitSettles. simpl. unfold gitSettles.
  destruct (git w _ _); simpl; by rewrite observed_start.
Qed.

(** X15. When git is not installed, [ensureGitRepoExists] throws its error
    at once: no subprocess is started, nothing is logged and the operator is
    not asked anything. *)
Theorem ensureGitRepoExists_git_missing w :
  found (gitPath w) = false →
  fst (run ensureGitRepoExists w) =
    Threw (Error "git command has not been found, install it before proceeding") ∧
  observed ensureGitRepoExists w = [].
Proof.
  intros Hfound. unfold observed, ensureGitRepoExists. simpl. rewrite Hfound. simpl.
  split; [done|]. by rewrite drop_all.
Qed.

Lemma ensureGitRepoExists_git_missing_witness :
  fst (run ensureGitRepoExists
         {| gitPath := None; git := fun _ _ => Resolved EmptyString;
            confirmations := [true]; submissions := ["First commit"];
            onInvalid := None; trace := [] |}) =
  Threw (Error "git command has not been found, install it before proceeding").
Proof.
  exact (proj1 (ensureGitRepoExists_git_missing
                  {| gitPath := None; git := fun _ _ => Resolved EmptyString;
                     confirmations := [true]; submissions := ["First commit"];
                     onInvalid := None; trace := [] |} eq_refl)).
Defined.

(** X16. In a directory that is a repository already, [ensureGitRepoExists]
    returns after the one [rev-parse]: it asks nothing and changes nothing. *)
Theorem ensureGitRepoExists_repo_exists w out :
  found (gitPath w) = true →
  gitSettles w ["rev-parse"; "--git-dir"] = Resolved out →
  fst (run ensureGitRepoExists w) = Returned tt ∧
  observed ensureGitRepoExists w = [Spawned ["rev-parse"; "--git-dir"]].
Proof.
  intros Hfound Hrepo. unfold gitSettles in Hrepo.
  unfold observed, ensureGitRepoExists. simpl. rewrite Hfound. simpl.
  unfold gitSettles. rewrite Hrepo. simpl. by rewrite observed_start.
Qed.

Lemma ensureGitRepoExists_repo_exists_witness :
  observed ensureGitRepoExists (sampleWorld true EmptyString [] []) =
  [Spawned ["rev-parse"; "--git-dir"]].
Proof.
  exact (proj2 (ensureGitRepoExists_repo_exists
                  (sampleWorld true EmptyString [] []) ".git" eq_refl eq_refl)).
Defined.

(** X17. When [git init] fails, [ensureGitRepoExists] throws that failure
    and goes no further: nothing is added or committed. *)
Theorem ensureGitRepoExists_init_fails w reason reason' answers :
  found (gitPath w) = true →
  gitSettles w ["rev-parse"; "--git-dir"] = Rejected reason →
  confirmations w = true :: answers →
  git w (invocations (trace w) ++ [["rev-parse"; "--git-dir"]]) ["init"] = Rejected reason' →
  fst (run ensureGitRepoExists w) = Threw (SpawnFailure ["init"] reason') ∧
  invocations (observed ensureGitRepoExists w) = [["rev-parse"; "--git-dir"]; ["init"]].
Proof.
  intros Hfound Hrepo Hanswer Hinit. unfold gitSettles in Hrepo.
  unfold observed, ensureGitRepoExists. simpl. rewrite Hfound. simpl.
  unfold gitSettles. rewrite Hrepo. simpl. rewrite Hanswer. simpl.
  unfold gitSettles. simpl. autorewrite with trace. simpl. rewrite Hinit. simpl.
  split; [done|]. rewrite <- !app_assoc, observed_start. reflexivity.
Qed.

Lemma ensureGitRepoExists_init_fails_witness :
  fst (run ensureGitRepoExists
         {| gitPath := Some "/usr/bin/git";
            git := fun _ _ => Rejected "permission denied";
            confirmations := [true]; submissions := ["First commit"];
            onInvalid := None; trace := [] |}) =
  Threw (SpawnFailure ["init"] "permission denied").
Proof.
  exact (proj1 (ensureGitRepoExists_init_fails
                  {| gitPath := Some "/usr/bin/git";
                     git := fun _ _ => Rejected "permission denied";
                     confirmations := [true]; submissions := ["First commit"];
                     onInvalid := None; trace := [] |}
                  "permission denied" "permission denied" [] eq_refl eq_refl eq_refl eq_refl)).
Defined.

(** Close a leaf of a statement on the invocations of a run: name the
    message of the commit when there is one. *)
Ltac sequence_leaf :=
  simpl; rewrite <- ?app_assoc; autorewrite with trace; simpl;
  first
    [ by (exists EmptyString; split;
          [eexists; reflexivity | intros; simplify_eq; auto])
    | by (eexists; split;
          [eexists; reflexivity | intros; simplify_eq; auto]) ].

Lemma ensureGitRepoExists_post_sequence :
  post ensureGitRepoExists
    (fun tr o =>
       ∃ message,
         invocations tr `prefix_of` initSequence message ∧
         (o = Returned tt →
          invocations tr = [["rev-parse"; "--git-dir"]] ∨
          invocations tr = initSequence message)).
Proof.
  unfold ensureGitRepoExists. simpl.
  answered. destruct (found _); simpl; [|sequence_leaf].
  repeat (answered; try sequence_leaf).
Qed.

(** X18. In every world, the git invocations of [ensureGitRepoExists] are a
    beginning of [rev-parse], [init], [add -A], [commit -m message], in that
    order; and when it returns, it has made either the [rev-parse] alone or
    the whole sequence. *)
Theorem ensureGitRepoExists_sequence w :
  ∃ message,
    invocations (observed ensureGitRepoExists w) `prefix_of` initSequence message ∧
    (fst (run ensureGitRepoExists w) = Returned tt →
     invocations (observed ensureGitRepoExists w) = [["rev-parse"; "--git-dir"]] ∨
     invocations (observed ensureGitRepoExists w) = initSequence message).
Proof. exact (post_observed _ _ w ensureGitRepoExists_post_sequence). Qed.

(** *** Reviewing and committing *)

(** X19. In non-interactive mode [reviewAndCommitChangesAsync] throws its
    [CommandError] before anything else: no diff is shown, nothing is asked,
    nothing is committed. *)
Theorem reviewAndCommitChangesAsync_nonInteractive w commitMessage :
  fst (run (reviewAndCommitChangesAsync commitMessage true) w) =
    Threw (CommandError "Cannot commit changes when --non-interactive is specified. Run the command in interactive mode to review and commit changes.") ∧
  observed (reviewAndCommitChangesAsync commitMessage true) w = [].
Proof. split; [done|]. unfold observed. simpl. by rewrite drop_all. Qed.

Lemma reviewAndCommitChangesAsync_guarded commitMessage nonInteractive :
  post (reviewAndCommitChangesAsync commitMessage nonInteractive)
    (fun tr _ => guarded "Can we commit these changes for you?" false tr = true).
Proof.
  unfold reviewAndCommitChangesAsync, showDiffAsync. destruct nonInteractive; simpl; [done|].
  repeat (answered; try guarded_trace).
Qed.

(** X20. When the operator declines the commit, [reviewAndCommitChangesAsync]
    throws its error after the diff and runs no [add] and no [commit]; and in
    every world, it changes the repository only after the operator has
    answered yes. *)
Theorem reviewAndCommitChangesAsync_declined w commitMessage nonInteractive :
  (∀ out answers,
     nonInteractive = false →
     gitSettles w ["--no-pager"; "diff"] = Resolved out →
     confirmations w = false :: answers →
     fst (run (reviewAndCommitChangesAsync commitMessage nonInteractive) w) =
       Threw (Error "Aborting commit. Please review and commit the changes manually.") ∧
     invocations (observed (reviewAndCommitChangesAsync commitMessage nonInteractive) w) =
       [["--no-pager"; "diff"]]) ∧
  (∀ pre args post,
     observed (reviewAndCommitChangesAsync commitMessage nonInteractive) w =
       pre ++ Spawned args :: post →
     mutates args = true →
     Confirmed "Can we commit these changes for you?" true ∈ pre).
Proof.
  split.
  - intros out answers -> Hdiff Hanswer. unfold gitSettles in Hdiff.
    unfold observed, reviewAndCommitChangesAsync, showDiffAsync. simpl.
    unfold gitSettles. simpl. autorewrite with trace. rewrite Hdiff. simpl.
    rewrite Hanswer. simpl. split; [done|].
    rewrite <- !app_assoc, observed_start. reflexivity.
  - intros pre args post Hobs Hm.
    pose proof (post_observed _ _ w
                  (reviewAndCommitChangesAsync_guarded commitMessage nonInteractive)) as Hg.
    simpl in Hg. destruct (guarded_spec _ _ _ _ _ _ Hg Hobs Hm) as [?|?]; done.
Qed.

Lemma reviewAndCommitChangesAsync_declined_witness :
  fst (run (reviewAndCommitChangesAsync "Update app config" false)
         (sampleWorld true " M app.json" [false] [])) =
  Threw (Error "Aborting commit. Please review and commit the changes manually.").
Proof.
  exact (proj1 (proj1 (reviewAndCommitChangesAsync_declined
                         (sampleWorld true " M app.json" [false] [])
                         "Update app config" false)
                 EmptyString [] eq_refl eq_refl eq_refl)).
Defined.

Lemma reviewAndCommitChangesAsync_post_sequence commitMessage nonInteractive :
  post (reviewAndCommitChangesAsync commitMessage nonInteractive)
    (fun tr o =>
       ∃ message,
         invocations tr `prefix_of` commitSequence message ∧
         (o = Returned tt → invocations tr = commitSequence message)).
Proof.
  unfold reviewAndCommitChangesAsync, showDiffAsync. destruct nonInteractive; simpl.
  - sequence_leaf.
  - repeat (answered; try sequence_leaf).
Qed.

(** X21. In every world, the git invocations of
    [reviewAndCommitChangesAsync] are a beginning of the diff, [add -u],
    [commit -m message], in that order; and when it returns, it has made all
    three. *)
Theorem reviewAndCommitChangesAsync_sequence w commitMessage nonInteractive :
  ∃ message,
    invocations (observed (reviewAndCommitChangesAsync commitMessage nonInteractive) w)
      `prefix_of` commitSequence message ∧
    (fst (run (reviewAndCommitChangesAsync commitMessage nonInteractive) w) = Returned tt →
     invocations (observed (reviewAndCommitChangesAsync commitMessage nonInteractive) w)
       = commitSequence message).
Proof.
  exact (post_observed _ _ w
           (reviewAndCommitChangesAsync_post_sequence commitMessage nonInteractive)).
Qed.

(** X22. When the diff fails, [reviewAndCommitChangesAsync] throws that
    failure and the operator is asked nothing. *)
Theorem reviewAndCommitChangesAsync_diff_fails w commitMessage reason :
  gitSettles w ["--no-pager"; "diff"] = Rejected reason →
  fst (run (reviewAndCommitChangesAsync commitMessage false) w) =
    Threw (SpawnFailure ["--no-pager"; "diff"] reason) ∧
  Forall (fun o => isPrompt o = false)
    (observed (reviewAndCommitChangesAsync commitMessage false) w).
Proof.
  intros Hdiff. unfold gitSettles in Hdiff.
  unfold observed, reviewAndCommitChangesAsync, showDiffAsync. simpl.
  unfold gitSettles. simpl. autorewrite with trace. rewrite Hdiff. simpl.
  split; [done|]. rewrite <- !app_assoc, observed_start. by repeat constructor.
Qed.

Lemma reviewAndCommitChangesAsync_diff_fails_witness :
  fst (run (reviewAndCommitChangesAsync "Update app config" false)
         {| gitPath := Some "/usr/bin/git";
            git := fun _ _ => Rejected "fatal: not a git repository";
            confirmations := [true]; submissions := ["Update"];
            onInvalid := None; trace := [] |}) =
  Threw (SpawnFailure ["--no-pager"; "diff"] "fatal: not a git repository").
Proof.
  exact (proj1 (reviewAndCommitChangesAsync_diff_fails
                  {| gitPath := Some "/usr/bin/git";
                     git := fun _ _ => Rejected "fatal: not a git repository";
                     confirmations := [true]; submissions := ["Update"];
            onInvalid := None; trace := [] |}
                  "Update app config" "fatal: not a git repository" eq_refl)).
Defined.

(** *** Adding a file, and the status *)

(** X23. [addFileAsync] runs git once, [add] on the file, with
    [--intent-to-add] exactly when the option is set and true; it returns when
    git succeeds and throws the failure of git otherwise. *)
Theorem addFileAsync_once w file (options : option AddOptions) :
  let args := if bool_decide (options ≫= intentToAdd = Some true)
              then ["add"; "--intent-to-add"; file] else ["add"; file] in
  observed (addFileAsync file options) w = [Spawned args] ∧
  fst (run (addFileAsync file options) w) =
    match gitSettles w args with
    | Resolved _ => Returned tt
    | Rejected reason => Threw (SpawnFailure args reason)
    end.
Proof.
  unfold observed, addFileAsync.
  destruct options as [[[[]|]]|]; simpl; unfold gitSettles;
    destruct (git w _ _); simpl; split; try done; apply observed_start.
Qed.

(** X24. [ensureGitStatusIsCleanAsync] only reads: in every world it runs
    the status subcommand once and nothing else, it asks the operator nothing,
    and it ends by returning or throwing. *)
Theorem ensureGitStatusIsCleanAsync_reads_only w :
  observed ensureGitStatusIsCleanAsync w = [Spawned ["status"; "-s"; "-uno"]] ∧
  fst (run ensureGitStatusIsCleanAsync w) ≠ Pending.
Proof.
  unfold observed, ensureGitStatusIsCleanAsync. simpl. unfold gitSettles.
  destruct (git w _ _) as [out|reason]; simpl;
    [destruct (0 <? String.length out); simpl|]; by rewrite observed_start.
Qed.

End GitHelper.
